(** * show_pixel_info.py: a shallow embedding of the pixel reporter

    The script opens an image with PIL, reads [image.size], walks the
    coordinates with two nested [range] loops ([y] outer, [x] inner), unpacks
    [image.getpixel((x, y))] into [r, g, b] and prints one f-string per pixel.

    The image codec (PIL) is an external collaborator.  It is modelled as the
    spec describes its contract: a file system that may or may not hold the
    bytes of a path, a decoder that may reject those bytes, and an image value
    carrying its mode, its size and a pixel-access function.  The script's own
    code (lines 4-16) is embedded as a small state-and-error monad whose state
    is the image object, the lines written to standard output and the log of
    [getpixel] calls. *)

From Stdlib Require Import List String Ascii ZArith Arith Lia Bool.
From Stdlib Require Import Sorting.Sorted.
Import ListNotations.

Open Scope list_scope.

(** ** The codec collaborator (PIL) *)

(** PIL image modes; [bands] is the number of channels of each mode. *)
Inductive Mode := L | LA | P | I | RGB | RGBA | CMYK | YCbCr.

Definition bands (m : Mode) : nat :=
  match m with
  | L | P | I => 1
  | LA => 2
  | RGB | YCbCr => 3
  | RGBA | CMYK => 4
  end.

(** What [Image.getpixel] returns: a bare int for single-band modes, a tuple
    for multi-band modes. *)
Inductive pixel :=
| PScalar (v : Z)
| PTuple (vs : list Z).

Definition pixel_bands (p : pixel) : nat :=
  match p with
  | PScalar _ => 1
  | PTuple vs => List.length vs
  end.

(** A decoded image: its mode, [image.size = (width, height)] and the pixel
    access; [None] is a failing access (e.g. truncated data met by the lazy
    [load()] inside [getpixel]). *)
Record Image := mkImage {
  mode : Mode;
  size : nat * nat;
  px : nat -> nat -> option pixel
}.

Definition width (img : Image) : nat := fst (size img).
Definition height (img : Image) : nat := snd (size img).

(** The two error kinds of the spec, plus the failure of the tuple
    unpacking [r, g, b = ...] (ValueError / TypeError in Python). *)
Inductive error :=
| DecodeError
| PixelAccessError (x y : nat)
| UnpackError (x y : nat).

Definition bytes := list Byte.byte.

(** [Image.open(path)]: a missing or unreadable file, or content the decoder
    does not recognise, raises; otherwise the decoded image is returned. *)
Definition Image_open (fs : string -> option bytes) (decode : bytes -> option Image)
    (path : string) : Image + error :=
  match fs path with
  | None => inr DecodeError
  | Some b =>
      match decode b with
      | None => inr DecodeError
      | Some img => inl img
      end
  end.

(** An 8-bit-per-channel RGB image as PIL stores it: three bytes per pixel,
    row-major, in a flat buffer.  A buffer too short for a pixel makes the
    access to that pixel fail. *)
Definition rgb8_image (w h : nat) (buf : bytes) : Image :=
  mkImage RGB (w, h)
    (fun x y =>
       if (x <? w) && (y <? h) then
         let o := 3 * (y * w + x) in
         match nth_error buf o, nth_error buf (o + 1), nth_error buf (o + 2) with
         | Some r, Some g, Some b =>
             Some (PTuple [Z.of_nat (Byte.to_nat r); Z.of_nat (Byte.to_nat g);
                           Z.of_nat (Byte.to_nat b)])
         | _, _, _ => None
         end
       else None).

(** ** Python's [str] on ints *)

Fixpoint digits_aux (fuel n : nat) (acc : string) : string :=
  match fuel with
  | 0 => acc
  | S f =>
      let acc' := String (ascii_of_nat (48 + n mod 10)) acc in
      if n <? 10 then acc' else digits_aux f (n / 10) acc'
  end.

Definition str_nat (n : nat) : string := digits_aux (S n) n EmptyString.

Definition str_Z (z : Z) : string :=
  match z with
  | Z.neg p => String "-" (str_nat (Pos.to_nat p))
  | _ => str_nat (Z.to_nat z)
  end.

(** The f-string of line 16. *)
Definition pixel_line (x y : nat) (r g b : Z) : string :=
  ("Pixel at (" ++ str_nat x ++ ", " ++ str_nat y ++ ") - R: " ++ str_Z r
   ++ ", G: " ++ str_Z g ++ ", B: " ++ str_Z b)%string.

(** ** The script's state and its monad *)

Record State := mkState {
  image : Image;
  stdout : list string;
  reads : list (nat * nat)
}.

Definition M (A : Type) : Type := State -> (A + error) * State.

Definition ret {A} (a : A) : M A := fun s => (inl a, s).

Definition raise {A} (e : error) : M A := fun s => (inr e, s).

Definition bind {A B} (m : M A) (k : A -> M B) : M B :=
  fun s =>
    match m s with
    | (inl a, s') => k a s'
    | (inr e, s') => (inr e, s')
    end.

Notation "x <- m ;; k" := (bind m (fun x => k))
  (at level 61, m at next level, right associativity).

(** [image.size] *)
Definition image_size : M (nat * nat) := fun s => (inl (size (image s)), s).

(** [image.getpixel((x, y))]: one logged access to the image. *)
Definition getpixel (x y : nat) : M pixel :=
  fun s =>
    let s' := mkState (image s) (stdout s) (reads s ++ [(x, y)]) in
    match px (image s) x y with
    | Some p => (inl p, s')
    | None => (inr (PixelAccessError x y), s')
    end.

(** [r, g, b = ...]: succeeds only on a tuple of exactly three values. *)
Definition unpack3 (x y : nat) (p : pixel) : M (Z * Z * Z) :=
  match p with
  | PTuple [r; g; b] => ret (r, g, b)
  | _ => raise (UnpackError x y)
  end.

(** [print(...)] *)
Definition print (line : string) : M unit :=
  fun s => (inl tt, mkState (image s) (stdout s ++ [line]) (reads s)).

Definition range (n : nat) : list nat := seq 0 n.

(** [for i in l: f(i)] *)
Fixpoint for_in (l : list nat) (f : nat -> M unit) : M unit :=
  match l with
  | [] => ret tt
  | i :: l' => bind (f i) (fun _ => for_in l' f)
  end.

(** Lines 12-16: the loop body. *)
Definition pixel_body (x y : nat) : M unit :=
  p <- getpixel x y ;;
  rgb <- unpack3 x y p ;;
  let '(r, g, b) := rgb in
  print (pixel_line x y r g b).

(** Lines 7-16. *)
Definition iterate_and_report : M unit :=
  sz <- image_size ;;
  let '(width, height) := sz in
  for_in (range height) (fun y =>
    for_in (range width) (fun x => pixel_body x y)).

(** The run of lines 7-16 on a freshly opened image. *)
Definition report (img : Image) : (unit + error) * State :=
  iterate_and_report (mkState img [] []).

(** The whole script on a given path: the result and the printed lines. *)
Definition run_path (fs : string -> option bytes) (decode : bytes -> option Image)
    (path : string) : (unit + error) * list string :=
  match Image_open fs decode path with
  | inr e => (inr e, [])
  | inl img => let '(r, s) := report img in (r, stdout s)
  end.

Definition main (fs : string -> option bytes) (decode : bytes -> option Image) :=
  run_path fs decode "pic2.jpg".

(** ** Coordinates *)

(** The coordinates of the nested loops, flattened. *)
Definition row_major (w h : nat) : list (nat * nat) :=
  flat_map (fun y => map (fun x => (x, y)) (range w)) (range h).

(** Lexicographic order on [(x, y)], [y] first (spec §8). *)
Definition lex_lt (c1 c2 : nat * nat) : Prop :=
  snd c1 < snd c2 \/ (snd c1 = snd c2 /\ fst c1 < fst c2).

(** Whether the body at a coordinate runs to its [print]. *)
Definition rgb_ok (img : Image) (c : nat * nat) : bool :=
  match px img (fst c) (snd c) with
  | Some (PTuple [_; _; _]) => true
  | _ => false
  end.

(** The line the body prints at a coordinate where [rgb_ok] holds. *)
Definition line (img : Image) (c : nat * nat) : string :=
  match px img (fst c) (snd c) with
  | Some (PTuple [r; g; b]) => pixel_line (fst c) (snd c) r g b
  | _ => EmptyString
  end.

(** The error the body raises at a coordinate where [rgb_ok] fails. *)
Definition fault (img : Image) (c : nat * nat) : error :=
  match px img (fst c) (snd c) with
  | None => PixelAccessError (fst c) (snd c)
  | Some _ => UnpackError (fst c) (snd c)
  end.

(** The loop over a flat list of coordinates. *)
Fixpoint for_coords (cs : list (nat * nat)) : M unit :=
  match cs with
  | [] => ret tt
  | c :: cs' => bind (pixel_body (fst c) (snd c)) (fun _ => for_coords cs')
  end.

(** The state after the bodies of [pre] all printed their line. *)
Definition advance (img : Image) (s : State) (pre : list (nat * nat)) : State :=
  mkState img (stdout s ++ map (line img) pre) (reads s ++ pre).

(** ** Loop lemmas *)

Section Loop.

Lemma for_coords_app (cs1 cs2 : list (nat * nat)) (s : State) :
  for_coords (cs1 ++ cs2) s =
  match for_coords cs1 s with
  | (inl _, s') => for_coords cs2 s'
  | (inr e, s') => (inr e, s')
  end.
Proof.
  revert s; induction cs1 as [|c cs1 IH]; intros s; [reflexivity|].
  simpl; unfold bind.
  destruct (pixel_body (fst c) (snd c) s) as [[u|e] s']; [apply IH|reflexivity].
Qed.

Lemma for_in_row (w y : nat) (s : State) :
  for_in (range w) (fun x => pixel_body x y) s =
  for_coords (map (fun x => (x, y)) (range w)) s.
Proof.
  unfold range; generalize 0 as a; revert s.
  induction w as [|w IH]; intros s a; [reflexivity|].
  simpl; unfold bind.
  destruct (pixel_body a y s) as [[u|e] s']; [apply IH|reflexivity].
Qed.

Lemma for_in_rows (w : nat) (ys : list nat) (s : State) :
  for_in ys (fun y => for_in (range w) (fun x => pixel_body x y)) s =
  for_coords (flat_map (fun y => map (fun x => (x, y)) (range w)) ys) s.
Proof.
  revert s; induction ys as [|y ys IH]; intros s; [reflexivity|].
  simpl; rewrite for_coords_app; unfold bind at 1.
  rewrite for_in_row.
  destruct (for_coords _ s) as [[u|e] s']; [apply IH|reflexivity].
Qed.

(** The nested loops of the script are the flat loop over [row_major]. *)
Lemma report_for_coords (img : Image) :
  report img = for_coords (row_major (width img) (height img)) (mkState img [] []).
Proof.
  unfold report, iterate_and_report, bind, image_size, width, height; simpl.
  destruct (size img) as [w h]; simpl.
  apply for_in_rows.
Qed.

Lemma pixel_body_ok (img : Image) (s : State) (c : nat * nat) :
  image s = img -> rgb_ok img c = true ->
  pixel_body (fst c) (snd c) s = (inl tt, advance img s [c]).
Proof.
  intros Hs Hok; subst img; destruct s as [img out rd]; simpl in *.
  unfold rgb_ok in Hok; unfold advance, line, pixel_body, getpixel, bind; simpl.
  destruct c as [x y]; simpl in *.
  destruct (px img x y) as [[v|[|r [|g [|b [|]]]]]|];
    try discriminate; reflexivity.
Qed.

Lemma pixel_body_fail (img : Image) (s : State) (c : nat * nat) :
  image s = img -> rgb_ok img c = false ->
  pixel_body (fst c) (snd c) s =
  (inr (fault img c), mkState img (stdout s) (reads s ++ [c])).
Proof.
  intros Hs Hok; subst img; destruct s as [img out rd]; simpl in *.
  unfold rgb_ok in Hok; unfold fault, pixel_body, getpixel, bind; simpl.
  destruct c as [x y]; simpl in *.
  destruct (px img x y) as [[v|[|r [|g [|b [|]]]]]|];
    try discriminate; reflexivity.
Qed.

Lemma for_coords_ok (img : Image) (pre rest : list (nat * nat)) (s : State) :
  image s = img -> forallb (rgb_ok img) pre = true ->
  for_coords (pre ++ rest) s = for_coords rest (advance img s pre).
Proof.
  revert s; induction pre as [|c pre IH]; intros s Hs Hok.
  - destruct s as [i o r]; simpl in Hs; subst i; unfold advance; simpl.
    rewrite !app_nil_r; reflexivity.
  - simpl in Hok; apply andb_prop in Hok as [Hc Hpre].
    simpl; unfold bind at 1; rewrite (pixel_body_ok img s c Hs Hc).
    rewrite IH by auto.
    unfold advance; simpl; rewrite <- !app_assoc; reflexivity.
Qed.

Lemma for_coords_all (img : Image) (cs : list (nat * nat)) (s : State) :
  image s = img -> forallb (rgb_ok img) cs = true ->
  for_coords cs s = (inl tt, advance img s cs).
Proof.
  intros Hs Hok; rewrite <- (app_nil_r cs) at 1.
  rewrite (for_coords_ok img cs [] s Hs Hok); reflexivity.
Qed.

Lemma for_coords_stop (img : Image) (pre post : list (nat * nat)) (c : nat * nat)
    (s : State) :
  image s = img -> forallb (rgb_ok img) pre = true -> rgb_ok img c = false ->
  for_coords (pre ++ c :: post) s =
  (inr (fault img c),
   mkState img (stdout s ++ map (line img) pre) (reads s ++ pre ++ [c])).
Proof.
  intros Hs Hpre Hc; rewrite (for_coords_ok img pre (c :: post) s Hs Hpre).
  simpl; unfold bind at 1.
  rewrite (pixel_body_fail img (advance img s pre) c eq_refl Hc); simpl.
  rewrite <- app_assoc; reflexivity.
Qed.

(** Every list of coordinates either passes [rgb_ok] throughout or has a
    first coordinate where it fails. *)
Lemma first_fault_split (img : Image) (cs : list (nat * nat)) :
  forallb (rgb_ok img) cs = true \/
  exists pre c post, cs = pre ++ c :: post /\ forallb (rgb_ok img) pre = true
                     /\ rgb_ok img c = false.
Proof.
  induction cs as [|c cs IH]; [left; reflexivity|].
  simpl; destruct (rgb_ok img c) eqn:Hc.
  - destruct IH as [IH|(pre & d & post & E & Hpre & Hd)]; [left; exact IH|].
    right; exists (c :: pre), d, post; subst cs; simpl; rewrite Hc; auto.
  - right; exists [], c, cs; auto.
Qed.

End Loop.

(** ** Facts about [row_major] *)

Section RowMajor.

Lemma strongly_sorted_app {A} (R : A -> A -> Prop) (l1 l2 : list A) :
  StronglySorted R l1 -> StronglySorted R l2 ->
  (forall a b, In a l1 -> In b l2 -> R a b) -> StronglySorted R (l1 ++ l2).
Proof.
  induction l1 as [|a l1 IH]; intros H1 H2 H12; simpl; [exact H2|].
  inversion H1 as [|? ? Hs Hf]; subst.
  constructor.
  - apply IH; auto; intros; apply H12; simpl; auto.
  - apply Forall_app; split; [exact Hf|].
    apply Forall_forall; intros; apply H12; simpl; auto.
Qed.

Lemma strongly_sorted_nodup {A} (R : A -> A -> Prop) (l : list A) :
  (forall a, ~ R a a) -> StronglySorted R l -> NoDup l.
Proof.
  intros Hirr; induction 1 as [|a l Hs IH Hf]; constructor; auto.
  intros Hin; rewrite Forall_forall in Hf; exact (Hirr a (Hf a Hin)).
Qed.

Lemma lex_lt_irrefl (c : nat * nat) : ~ lex_lt c c.
Proof. unfold lex_lt; lia. Qed.

Lemma row_sorted (w a y : nat) :
  StronglySorted lex_lt (map (fun x => (x, y)) (seq a w)).
Proof.
  revert a; induction w as [|w IH]; intros a; simpl; constructor; auto.
  apply Forall_forall; intros c Hc; apply in_map_iff in Hc as (x & <- & Hx).
  apply in_seq in Hx; unfold lex_lt; simpl; lia.
Qed.

Lemma in_row_major (w h x y : nat) :
  In (x, y) (row_major w h) <-> x < w /\ y < h.
Proof.
  unfold row_major, range; rewrite in_flat_map; split.
  - intros (y' & Hy' & Hin); apply in_map_iff in Hin as (x' & E & Hx').
    injection E as -> ->; apply in_seq in Hy'; apply in_seq in Hx'; lia.
  - intros [Hx Hy]; exists y; split; [apply in_seq; lia|].
    apply in_map_iff; exists x; split; [reflexivity|apply in_seq; lia].
Qed.

Lemma row_major_S (w h : nat) :
  row_major w (S h) = row_major w h ++ map (fun x => (x, h)) (range w).
Proof.
  unfold row_major, range; rewrite seq_S, flat_map_app; simpl.
  rewrite app_nil_r; reflexivity.
Qed.

Lemma row_major_sorted (w h : nat) : StronglySorted lex_lt (row_major w h).
Proof.
  induction h as [|h IH]; [constructor|].
  rewrite row_major_S; apply strongly_sorted_app; [exact IH|apply row_sorted|].
  intros [x1 y1] [x2 y2] H1 H2.
  apply in_row_major in H1; apply in_map_iff in H2 as (x & E & _).
  injection E as -> ->; unfold lex_lt; simpl; lia.
Qed.

Lemma row_major_nodup (w h : nat) : NoDup (row_major w h).
Proof.
  apply (strongly_sorted_nodup lex_lt); [apply lex_lt_irrefl|apply row_major_sorted].
Qed.

Lemma row_major_length (w h : nat) : List.length (row_major w h) = w * h.
Proof.
  induction h as [|h IH]; [simpl; lia|].
  rewrite row_major_S, length_app, IH, length_map; unfold range; rewrite length_seq; lia.
Qed.

End RowMajor.

(** ** The shape of every run *)

Section Shape.

Variable img : Image.

Let cs := row_major (width img) (height img).

(** Every run prints the lines of a prefix [pre] of the coordinates, each of
    which passed its body; it either finishes with [pre] the whole list, or
    stops at the next coordinate with the error of its body, which is the
    last coordinate read.  The image is never replaced. *)
Lemma report_shape :
  image (snd (report img)) = img /\
  exists pre, forallb (rgb_ok img) pre = true /\
    stdout (snd (report img)) = map (line img) pre /\
    ((fst (report img) = inl tt /\ pre = cs /\ reads (snd (report img)) = cs) \/
     (exists c post, cs = pre ++ c :: post /\ rgb_ok img c = false /\
        fst (report img) = inr (fault img c) /\
        reads (snd (report img)) = pre ++ [c])).
Proof.
  rewrite report_for_coords; fold cs.
  destruct (first_fault_split img cs) as [Hall|(pre & c & post & E & Hpre & Hc)].
  - rewrite (for_coords_all img cs (mkState img [] []) eq_refl Hall); simpl.
    split; [reflexivity|]; exists cs; split; [exact Hall|split; [reflexivity|left; auto]].
  - rewrite E, (for_coords_stop img pre post c (mkState img [] []) eq_refl Hpre Hc); simpl.
    split; [reflexivity|]; exists pre; split; [exact Hpre|split; [reflexivity|]].
    right; exists c, post; auto.
Qed.

Lemma report_ok_all :
  fst (report img) = inl tt -> forallb (rgb_ok img) cs = true.
Proof.
  destruct report_shape as [_ (pre & Hpre & _ & [(_ & -> & _)|(c & post & _ & _ & Hr & _)])];
    intros Hok; [exact Hpre|rewrite Hr in Hok; discriminate].
Qed.

Lemma report_all_ok :
  forallb (rgb_ok img) cs = true ->
  report img = (inl tt, mkState img (map (line img) cs) cs).
Proof.
  intros Hall; rewrite report_for_coords; fold cs.
  rewrite (for_coords_all img cs (mkState img [] []) eq_refl Hall); reflexivity.
Qed.

End Shape.

(** ** Images used as concrete inputs *)

(** A 2x2 all-black 8-bit RGB image (spec §8). *)
Definition black2 : Image := rgb8_image 2 2 (repeat Byte.x00 12).

(** A 1x1 8-bit RGB image holding (255, 128, 0) (spec §8). *)
Definition orange1 : Image := rgb8_image 1 1 [Byte.xff; Byte.x80; Byte.x00].

(** A 1x1 single-band grayscale image, as PIL opens a grayscale JPEG. *)
Definition gray1 : Image :=
  mkImage L (1, 1) (fun x y => if (x <? 1) && (y <? 1) then Some (PScalar 0) else None).

(** A 2x1 RGB image whose second pixel cannot be read. *)
Definition truncated2 : Image :=
  mkImage RGB (2, 1) (fun x y => if x =? 0 then Some (PTuple [1; 2; 3]%Z) else None).

(** A file system holding [pic2.jpg] and a decoder returning a fixed image. *)
Definition fs_with (b : bytes) : string -> option bytes :=
  fun p => if String.eqb p "pic2.jpg" then Some b else None.

Definition decode_to (img : Image) : bytes -> option Image := fun _ => Some img.

Example black2_lines :
  stdout (snd (report black2)) =
  ["Pixel at (0, 0) - R: 0, G: 0, B: 0"; "Pixel at (1, 0) - R: 0, G: 0, B: 0";
   "Pixel at (0, 1) - R: 0, G: 0, B: 0"; "Pixel at (1, 1) - R: 0, G: 0, B: 0"]%string.
Proof. reflexivity. Qed.

(** ** C1: row-major order *)

(** C1: when the run completes, the coordinates whose lines are printed, in
    order, are strictly increasing in the (y, x) lexicographic order (hence
    each appears once) and are exactly those with [x < width] and
    [y < height]. *)
Theorem report_row_major_order (img : Image) (Hok : fst (report img) = inl tt) :
  exists cs, stdout (snd (report img)) = map (line img) cs /\
    StronglySorted lex_lt cs /\ NoDup cs /\
    (forall x y, In (x, y) cs <-> x < width img /\ y < height img).
Proof.
  rewrite (report_all_ok img (report_ok_all img Hok)); simpl.
  exists (row_major (width img) (height img)); split; [reflexivity|].
  split; [apply row_major_sorted|split; [apply row_major_nodup|apply in_row_major]].
Qed.

Lemma report_row_major_order_witness :
  fst (report black2) = inl tt /\
  exists cs, stdout (snd (report black2)) = map (line black2) cs /\
    StronglySorted lex_lt cs /\ NoDup cs /\
    (forall x y, In (x, y) cs <-> x < width black2 /\ y < height black2).
Proof.
  split; [reflexivity|].
  apply report_row_major_order; reflexivity.
Defined.

(** ** C2: the printed line *)

Lemma line_of_ok (img : Image) (c : nat * nat) :
  rgb_ok img c = true ->
  exists r g b, px img (fst c) (snd c) = Some (PTuple [r; g; b]) /\
                line img c = pixel_line (fst c) (snd c) r g b.
Proof.
  unfold rgb_ok, line.
  destruct (px img (fst c) (snd c)) as [[v|[|r [|g [|b [|]]]]]|]; try discriminate.
  intros _; exists r, g, b; auto.
Qed.

Lemma forallb_line_of_ok (img : Image) (pre : list (nat * nat)) :
  forallb (rgb_ok img) pre = true ->
  Forall (fun c => exists r g b, px img (fst c) (snd c) = Some (PTuple [r; g; b]) /\
                                 line img c = pixel_line (fst c) (snd c) r g b) pre.
Proof.
  intros H; apply Forall_forall; intros c Hc.
  apply line_of_ok; rewrite forallb_forall in H; auto.
Qed.

(** C2: a run prints exactly one line per coordinate it visits and reads
    successfully, in visiting order and with no coordinate twice; the line of
    [(x, y)] with channels [(r, g, b)] is [pixel_line x y r g b], i.e.
    ["Pixel at (x, y) - R: r, G: g, B: b"] with the decimal numbers; the 1x1
    image (255, 128, 0) prints exactly ["Pixel at (0, 0) - R: 255, G: 128, B: 0"]. *)
Theorem report_line_format (img : Image) :
  (exists pre,
     stdout (snd (report img)) = map (line img) pre /\ NoDup pre /\
     (reads (snd (report img)) = pre \/
      exists c, reads (snd (report img)) = pre ++ [c] /\
                fst (report img) = inr (fault img c)) /\
     Forall (fun c => exists r g b,
               px img (fst c) (snd c) = Some (PTuple [r; g; b]) /\
               line img c = pixel_line (fst c) (snd c) r g b) pre) /\
  stdout (snd (report orange1)) = ["Pixel at (0, 0) - R: 255, G: 128, B: 0"%string].
Proof.
  split; [|reflexivity].
  destruct (report_shape img) as [_ (pre & Hpre & Hout & Hend)].
  exists pre; split; [exact Hout|].
  split; [|split; [|apply forallb_line_of_ok; exact Hpre]].
  - destruct Hend as [(_ & -> & _)|(c & post & E & _)]; [apply row_major_nodup|].
    apply (NoDup_app_remove_r _ (c :: post)); rewrite <- E; apply row_major_nodup.
  - destruct Hend as [(_ & -> & ->)|(c & post & _ & _ & Hr & Hrd)]; [left; reflexivity|].
    right; exists c; auto.
Qed.

(** ** C3: the number of lines *)

(** C3: when the image opens and the run completes, exactly
    [width * height] lines are printed. *)
Theorem run_path_line_count (fs : string -> option bytes)
    (decode : bytes -> option Image) (path : string) (img : Image)
    (Hopen : Image_open fs decode path = inl img)
    (Hok : fst (run_path fs decode path) = inl tt) :
  List.length (snd (run_path fs decode path)) = width img * height img.
Proof.
  unfold run_path in *; rewrite Hopen in *.
  assert (Hr : fst (report img) = inl tt)
    by (destruct (report img) as [r s]; exact Hok).
  rewrite (report_all_ok img (report_ok_all img Hr)); simpl.
  rewrite length_map; apply row_major_length.
Qed.

Lemma run_path_line_count_witness :
  Image_open (fs_with []) (decode_to black2) "pic2.jpg" = inl black2 /\
  fst (run_path (fs_with []) (decode_to black2) "pic2.jpg") = inl tt /\
  List.length (snd (run_path (fs_with []) (decode_to black2) "pic2.jpg")) = 4.
Proof.
  split; [reflexivity|split; [reflexivity|]].
  apply (run_path_line_count _ _ _ black2); reflexivity.
Defined.

(** ** C4: images without exactly three channels *)

(** C4 (as stated, refuted): a grayscale image opens without error, and the
    script then fails at its first pixel with an unpacking error, not with a
    [DecodeError] at open time. *)
Lemma gray_image_fails_per_pixel :
  Image_open (fs_with [Byte.x00]) (decode_to gray1) "pic2.jpg" = inl gray1 /\
  bands (mode gray1) <> 3 /\
  main (fs_with [Byte.x00]) (decode_to gray1) = (inr (UnpackError 0 0), []) /\
  fst (main (fs_with [Byte.x00]) (decode_to gray1)) <> inr DecodeError.
Proof.
  split; [reflexivity|split; [discriminate|split; [reflexivity|]]].
  simpl; discriminate.
Qed.

Lemma row_major_first (w h : nat) :
  0 < w -> 0 < h -> exists post, row_major w h = [] ++ (0, 0) :: post.
Proof.
  intros Hw Hh; destruct w as [|w]; [lia|]; destruct h as [|h]; [lia|].
  unfold row_major, range; simpl; eexists; reflexivity.
Qed.

(** C4 (amended): neither [Image.open] nor the script checks the mode; when
    an opened non-empty image has a mode whose band count is not three and
    its first pixel can be read (with that band count), the run fails at
    [(0, 0)] with an unpacking error and prints nothing. *)
Theorem non_rgb_mode_fails_at_first_pixel (fs : string -> option bytes)
    (decode : bytes -> option Image) (path : string) (img : Image) (p : pixel)
    (Hopen : Image_open fs decode path = inl img)
    (Hw : 0 < width img) (Hh : 0 < height img)
    (Hp : px img 0 0 = Some p)
    (Hmode : pixel_bands p = bands (mode img))
    (Hbands : bands (mode img) <> 3) :
  run_path fs decode path = (inr (UnpackError 0 0), []).
Proof.
  unfold run_path; rewrite Hopen, report_for_coords.
  destruct (row_major_first _ _ Hw Hh) as [post ->].
  assert (Hc : rgb_ok img (0, 0) = false).
  { unfold rgb_ok; simpl; rewrite Hp.
    destruct p as [v|[|r [|g [|b [|]]]]]; simpl in Hmode; auto; congruence. }
  rewrite (for_coords_stop img [] post (0, 0) (mkState img [] []) eq_refl eq_refl Hc).
  unfold fault; simpl; rewrite Hp; reflexivity.
Qed.

Lemma non_rgb_mode_fails_at_first_pixel_witness :
  run_path (fs_with [Byte.x00]) (decode_to gray1) "pic2.jpg" = (inr (UnpackError 0 0), []).
Proof.
  apply (non_rgb_mode_fails_at_first_pixel _ _ _ gray1 (PScalar 0));
    first [reflexivity | vm_compute; lia | discriminate].
Defined.

(** ** C5: a failing pixel access *)

(** C5: when the access to [(x0, y0)] fails and every coordinate before it
    (in the loops' order) printed its line, the run ends there with
    [PixelAccessError x0 y0]: the lines of the earlier coordinates stay
    printed, [(x0, y0)] is read once and no later coordinate is read. *)
Theorem pixel_access_error_stops (img : Image) (pre post : list (nat * nat))
    (x0 y0 : nat)
    (Hsplit : row_major (width img) (height img) = pre ++ (x0, y0) :: post)
    (Hpre : forallb (rgb_ok img) pre = true)
    (Hfail : px img x0 y0 = None) :
  report img =
  (inr (PixelAccessError x0 y0), mkState img (map (line img) pre) (pre ++ [(x0, y0)])).
Proof.
  rewrite report_for_coords, Hsplit.
  assert (Hc : rgb_ok img (x0, y0) = false) by (unfold rgb_ok; simpl; rewrite Hfail; reflexivity).
  rewrite (for_coords_stop img pre post (x0, y0) (mkState img [] []) eq_refl Hpre Hc).
  unfold fault; simpl; rewrite Hfail; reflexivity.
Qed.

Lemma pixel_access_error_stops_witness :
  report truncated2 =
  (inr (PixelAccessError 1 0),
   mkState truncated2 ["Pixel at (0, 0) - R: 1, G: 2, B: 3"%string] [(0, 0); (1, 0)]).
Proof.
  apply (pixel_access_error_stops truncated2 [(0, 0)] [] 1 0); reflexivity.
Defined.

(** ** C6: a file that cannot be opened *)

(** C6: a missing or unreadable file, or bytes the decoder rejects, end the
    run with [DecodeError] and no printed line. *)
Theorem open_failure_no_output (fs : string -> option bytes)
    (decode : bytes -> option Image) (path : string)
    (Hfail : fs path = None \/ exists b, fs path = Some b /\ decode b = None) :
  run_path fs decode path = (inr DecodeError, []).
Proof.
  unfold run_path, Image_open.
  destruct Hfail as [-> | (b & -> & ->)]; reflexivity.
Qed.

Lemma open_failure_no_output_witness :
  main (fun _ => None) (decode_to black2) = (inr DecodeError, []).
Proof.
  apply open_failure_no_output; left; reflexivity.
Defined.

(** ** C7: determinism *)

Fixpoint zs_eqb (a b : list Z) : bool :=
  match a, b with
  | [], [] => true
  | x :: a', y :: b' => Z.eqb x y && zs_eqb a' b'
  | _, _ => false
  end.

Definition opt_pixel_eqb (o1 o2 : option pixel) : bool :=
  match o1, o2 with
  | None, None => true
  | Some (PScalar a), Some (PScalar b) => Z.eqb a b
  | Some (PTuple a), Some (PTuple b) => zs_eqb a b
  | _, _ => false
  end.

(** Two decoded images with the same size and the same pixel data at every
    coordinate of that size (their modes and anything else may differ). *)
Definition same_data (i1 i2 : Image) : bool :=
  (width i1 =? width i2) && (height i1 =? height i2) &&
  forallb (fun c => opt_pixel_eqb (px i1 (fst c) (snd c)) (px i2 (fst c) (snd c)))
          (row_major (width i1) (height i1)).

Lemma zs_eqb_eq (a b : list Z) : zs_eqb a b = true -> a = b.
Proof.
  revert b; induction a as [|x a IH]; intros [|y b]; simpl; try discriminate; auto.
  intros H; apply andb_prop in H as [Hxy Hab]; apply Z.eqb_eq in Hxy.
  rewrite Hxy, (IH b Hab); reflexivity.
Qed.

Lemma opt_pixel_eqb_eq (o1 o2 : option pixel) : opt_pixel_eqb o1 o2 = true -> o1 = o2.
Proof.
  destruct o1 as [[a|a]|], o2 as [[b|b]|]; simpl; try discriminate; auto.
  - intros H; apply Z.eqb_eq in H; subst; reflexivity.
  - intros H; apply zs_eqb_eq in H; subst; reflexivity.
Qed.

Section SameData.

Variables i1 i2 : Image.
Hypothesis Hsame : same_data i1 i2 = true.

Let cs := row_major (width i1) (height i1).

Lemma same_data_px (c : nat * nat) :
  In c cs -> px i1 (fst c) (snd c) = px i2 (fst c) (snd c).
Proof.
  intros Hc; unfold same_data in Hsame; apply andb_prop in Hsame as [_ H].
  rewrite forallb_forall in H; apply opt_pixel_eqb_eq, H, Hc.
Qed.

Lemma same_data_dims : width i1 = width i2 /\ height i1 = height i2.
Proof.
  unfold same_data in Hsame; apply andb_prop in Hsame as [H _].
  apply andb_prop in H as [Hw Hh]; split; apply Nat.eqb_eq; assumption.
Qed.

Lemma same_data_rgb_ok (l : list (nat * nat)) :
  incl l cs -> forallb (rgb_ok i1) l = forallb (rgb_ok i2) l.
Proof.
  induction l as [|c l IH]; intros Hl; [reflexivity|]; simpl.
  unfold rgb_ok at 1 3; rewrite (same_data_px c (Hl c (or_introl eq_refl))).
  rewrite IH; [reflexivity|intros d Hd; apply Hl; right; exact Hd].
Qed.

Lemma same_data_lines (l : list (nat * nat)) :
  incl l cs -> map (line i1) l = map (line i2) l.
Proof.
  intros Hl; apply map_ext_in; intros c Hc; unfold line.
  rewrite (same_data_px c (Hl c Hc)); reflexivity.
Qed.

Lemma same_data_report :
  fst (report i1) = fst (report i2) /\
  stdout (snd (report i1)) = stdout (snd (report i2)) /\
  reads (snd (report i1)) = reads (snd (report i2)).
Proof.
  destruct same_data_dims as [Ew Eh].
  rewrite !report_for_coords, <- Ew, <- Eh; fold cs.
  destruct (first_fault_split i1 cs) as [Hall|(pre & c & post & E & Hpre & Hc)].
  - assert (Hall2 : forallb (rgb_ok i2) cs = true)
      by (rewrite <- same_data_rgb_ok; [exact Hall|intros d Hd; exact Hd]).
    rewrite (for_coords_all i1 cs (mkState i1 [] []) eq_refl Hall).
    rewrite (for_coords_all i2 cs (mkState i2 [] []) eq_refl Hall2); simpl.
    split; [reflexivity|split; [apply same_data_lines; intros d Hd; exact Hd|reflexivity]].
  - assert (Hin : incl (pre ++ [c]) cs)
      by (rewrite E; intros d Hd; apply in_app_or in Hd as [Hd|[<-|[]]];
          apply in_or_app; [left|right; left]; auto).
    assert (Hpre2 : forallb (rgb_ok i2) pre = true)
      by (rewrite <- same_data_rgb_ok; [exact Hpre|intros d Hd; apply Hin, in_or_app; auto]).
    assert (Hcin : In c cs) by (apply Hin, in_or_app; right; left; reflexivity).
    assert (Hc2 : rgb_ok i2 c = false)
      by (unfold rgb_ok in *; rewrite <- (same_data_px c Hcin); exact Hc).
    rewrite E.
    rewrite (for_coords_stop i1 pre post c (mkState i1 [] []) eq_refl Hpre Hc).
    rewrite (for_coords_stop i2 pre post c (mkState i2 [] []) eq_refl Hpre2 Hc2); simpl.
    split; [unfold fault; rewrite (same_data_px c Hcin); reflexivity|].
    split; [apply same_data_lines; intros d Hd; apply Hin, in_or_app; auto|reflexivity].
Qed.

End SameData.

(** C7: the script's result and printed lines depend only on the decoded
    image's size and its pixel data within that size: two runs whose opened
    images agree there (in particular two runs on the same unchanged file)
    print identical output and end identically. *)
Theorem run_path_deterministic (fs1 fs2 : string -> option bytes)
    (d1 d2 : bytes -> option Image) (p1 p2 : string) (i1 i2 : Image)
    (H1 : Image_open fs1 d1 p1 = inl i1) (H2 : Image_open fs2 d2 p2 = inl i2)
    (Hsame : same_data i1 i2 = true) :
  run_path fs1 d1 p1 = run_path fs2 d2 p2.
Proof.
  unfold run_path; rewrite H1, H2.
  destruct (same_data_report i1 i2 Hsame) as (Er & Eo & _).
  destruct (report i1) as [r1 s1], (report i2) as [r2 s2]; simpl in *.
  rewrite Er, Eo; reflexivity.
Qed.

(** The same black pixel, once decoded as 8-bit RGB and once by a decoder
    whose access also answers outside the image. *)
Definition black1_other : Image :=
  mkImage YCbCr (1, 1) (fun _ _ => Some (PTuple [0; 0; 0]%Z)).

Lemma run_path_deterministic_witness :
  run_path (fs_with [Byte.x00; Byte.x00; Byte.x00])
           (decode_to (rgb8_image 1 1 [Byte.x00; Byte.x00; Byte.x00])) "pic2.jpg" =
  run_path (fs_with []) (decode_to black1_other) "pic2.jpg".
Proof.
  apply (run_path_deterministic _ _ _ _ _ _
           (rgb8_image 1 1 [Byte.x00; Byte.x00; Byte.x00]) black1_other);
    vm_compute; reflexivity.
Defined.

(** ** C8: channel range of 8-bit images *)

Lemma rgb8_px_bounded (w h x y : nat) (buf : bytes) (vs : list Z) :
  px (rgb8_image w h buf) x y = Some (PTuple vs) ->
  Forall (fun v => (0 <= v <= 255)%Z) vs.
Proof.
  unfold rgb8_image; cbn [px].
  destruct ((x <? w) && (y <? h)); [|discriminate].
  repeat match goal with
         | |- context [match ?e with Some _ => _ | None => _ end] =>
             destruct e; [|discriminate]
         end.
  intros E; injection E as E; subst vs.
  repeat constructor;
    match goal with |- context [Byte.to_nat ?v] => pose proof (Byte.to_nat_bounded v) end; lia.
Qed.

(** C8: every line printed for an 8-bit-per-channel RGB image is
    [pixel_line x y r g b] with [r], [g], [b] in [[0, 255]]. *)
Theorem rgb8_channels_in_range (w h : nat) (buf : bytes) :
  Forall (fun l => exists x y r g b, l = pixel_line x y r g b /\
            (0 <= r <= 255)%Z /\ (0 <= g <= 255)%Z /\ (0 <= b <= 255)%Z)
         (stdout (snd (report (rgb8_image w h buf)))).
Proof.
  destruct (report_shape (rgb8_image w h buf)) as [_ (pre & Hpre & -> & _)].
  apply Forall_map, Forall_forall; intros [x y] Hc.
  rewrite forallb_forall in Hpre.
  destruct (line_of_ok _ (x, y) (Hpre _ Hc)) as (r & g & b & Hpx & ->); simpl in *.
  apply rgb8_px_bounded in Hpx.
  inversion Hpx as [|? ? Hr Hgb]; inversion Hgb as [|? ? Hg Hb']; inversion Hb'; subst.
  exists x, y, r, g, b; auto.
Qed.

(** ** C9: empty images *)

Lemma row_major_empty (w h : nat) : w = 0 \/ h = 0 -> row_major w h = [].
Proof.
  intros H; apply length_zero_iff_nil; rewrite row_major_length.
  destruct H as [-> | ->]; lia.
Qed.

(** C9: an image of width 0 or height 0 runs no body: nothing is read,
    nothing is printed and the run ends normally. *)
Theorem empty_image_no_output (img : Image)
    (Hempty : width img = 0 \/ height img = 0) :
  report img = (inl tt, mkState img [] []).
Proof.
  rewrite report_for_coords, (row_major_empty _ _ Hempty); reflexivity.
Qed.

Lemma empty_image_no_output_witness :
  report (mkImage RGB (0, 5) (fun _ _ => None)) =
  (inl tt, mkState (mkImage RGB (0, 5) (fun _ _ => None)) [] []).
Proof.
  apply empty_image_no_output; left; reflexivity.
Defined.

(** ** C10: the image is only read *)

(** C10: the run leaves the image object as it was opened (size, mode and
    pixel data); its [getpixel] calls never repeat a coordinate and are, in
    order, a prefix of the loops' coordinates: all of them, each once, when
    the run completes. *)
Theorem report_read_only (img : Image) :
  image (snd (report img)) = img /\
  NoDup (reads (snd (report img))) /\
  (exists k, reads (snd (report img)) = firstn k (row_major (width img) (height img))) /\
  (fst (report img) = inl tt ->
   reads (snd (report img)) = row_major (width img) (height img)).
Proof.
  destruct (report_shape img) as [Himg (pre & _ & _ & Hend)].
  split; [exact Himg|].
  destruct Hend as [(Hr & -> & Hrd)|(c & post & E & _ & Hr & Hrd)]; rewrite Hrd.
  - split; [apply row_major_nodup|split; [|reflexivity]].
    exists (List.length (row_major (width img) (height img))); symmetry; apply firstn_all.
  - assert (E' : row_major (width img) (height img) = (pre ++ [c]) ++ post)
      by (rewrite <- app_assoc; exact E).
    split; [apply (NoDup_app_remove_r _ post); rewrite <- E'; apply row_major_nodup|].
    split; [|rewrite Hr; discriminate].
    exists (List.length (pre ++ [c]) + 0); rewrite E', firstn_app_2; simpl.
    rewrite app_nil_r; reflexivity.
Qed.

(** * Further properties of the script *)

(** ** Reading a printed line back *)

(** A reader for the lines of line 16: it checks the literal text and reads
    the five decimal numbers between it. *)
Definition is_digit (c : ascii) : bool :=
  (48 <=? nat_of_ascii c) && (nat_of_ascii c <=? 57).

Fixpoint read_digits (v : nat) (s : string) : nat * string :=
  match s with
  | String c s' => if is_digit c then read_digits (v * 10 + (nat_of_ascii c - 48)) s' else (v, s)
  | EmptyString => (v, s)
  end.

Definition read_nat (s : string) : option (nat * string) :=
  match s with
  | String c _ => if is_digit c then Some (read_digits 0 s) else None
  | EmptyString => None
  end.

Definition read_int (s : string) : option (Z * string) :=
  match s with
  | String c s' =>
      if Ascii.eqb c "-"%char then
        match read_nat s' with Some (n, r) => Some (Z.opp (Z.of_nat n), r) | None => None end
      else match read_nat s with Some (n, r) => Some (Z.of_nat n, r) | None => None end
  | EmptyString => None
  end.

Fixpoint expect (lit s : string) : option string :=
  match lit with
  | EmptyString => Some s
  | String c lit' =>
      match s with
      | String d s' => if Ascii.eqb c d then expect lit' s' else None
      | EmptyString => None
      end
  end.

Definition parse_line (s : string) : option (nat * nat * Z * Z * Z) :=
  match expect "Pixel at (" s with None => None | Some s =>
  match read_nat s with None => None | Some (x, s) =>
  match expect ", " s with None => None | Some s =>
  match read_nat s with None => None | Some (y, s) =>
  match expect ") - R: " s with None => None | Some s =>
  match read_int s with None => None | Some (r, s) =>
  match expect ", G: " s with None => None | Some s =>
  match read_int s with None => None | Some (g, s) =>
  match expect ", B: " s with None => None | Some s =>
  match read_int s with None => None | Some (b, s) =>
  match s with EmptyString => Some (x, y, r, g, b) | _ => None end
  end end end end end end end end end end.

(** Whether a string does not start with a digit. *)
Definition no_digit_first (s : string) : bool :=
  match s with String c _ => negb (is_digit c) | EmptyString => true end.

Section Decimal.

Lemma expect_app (lit rest : string) : expect lit (lit ++ rest) = Some rest.
Proof.
  induction lit as [|c lit IH]; [reflexivity|]; simpl; rewrite Ascii.eqb_refl; exact IH.
Qed.

Lemma digits_aux_app (f n : nat) (acc rest : string) :
  (digits_aux f n acc ++ rest)%string = digits_aux f n (acc ++ rest).
Proof.
  revert n acc; induction f as [|f IH]; intros n acc; [reflexivity|]; simpl.
  destruct (n <? 10); [reflexivity|]; apply IH.
Qed.

Lemma digit_char (d : nat) :
  d < 10 -> is_digit (ascii_of_nat (48 + d)) = true /\
            nat_of_ascii (ascii_of_nat (48 + d)) - 48 = d.
Proof.
  intros Hd; unfold is_digit; rewrite nat_ascii_embedding by lia.
  split; [apply andb_true_intro; split; apply Nat.leb_le; lia|lia].
Qed.

Lemma digits_aux_first (f n : nat) (acc : string) :
  exists c s, digits_aux (S f) n acc = String c s /\ is_digit c = true.
Proof.
  revert n acc; induction f as [|f IH]; intros n acc; cbn [digits_aux].
  - pose proof (digit_char (n mod 10) ltac:(apply Nat.mod_upper_bound; lia)) as [Hd _].
    destruct (n <? 10); eexists _, _; split; try reflexivity; exact Hd.
  - destruct (n <? 10); [|apply IH].
    pose proof (digit_char (n mod 10) ltac:(apply Nat.mod_upper_bound; lia)) as [Hd _].
    eexists _, _; split; [reflexivity|exact Hd].
Qed.

Lemma digits_aux_read (f n : nat) (acc : string) :
  n < f -> exists k, forall v,
    read_digits v (digits_aux f n acc) = read_digits (v * 10 ^ k + n) acc.
Proof.
  revert n acc; induction f as [|f IH]; intros n acc Hn; [lia|]; cbn [digits_aux].
  pose proof (Nat.div_mod_eq n 10) as Hdm.
  pose proof (Nat.mod_upper_bound n 10 ltac:(lia)) as Hm.
  remember (n mod 10) as d eqn:Ed.
  destruct (digit_char d Hm) as [Hdig Hval].
  destruct (n <? 10) eqn:Hlt.
  - apply Nat.ltb_lt in Hlt; exists 1; intros v; cbn [read_digits]; rewrite Hdig, Hval.
    assert (d = n) by (subst d; apply Nat.mod_small; lia).
    f_equal; rewrite Nat.pow_1_r; lia.
  - apply Nat.ltb_ge in Hlt.
    destruct (IH (n / 10) (String (ascii_of_nat (48 + d)) acc)) as [k Hk].
    { assert (n / 10 < n) by (apply Nat.div_lt; lia); lia. }
    exists (S k); intros v; rewrite Hk; cbn [read_digits]; rewrite Hdig, Hval; f_equal.
    rewrite Nat.pow_succ_r'; nia.
Qed.

Lemma read_digits_stop (v : nat) (s : string) :
  no_digit_first s = true -> read_digits v s = (v, s).
Proof.
  destruct s as [|c s]; simpl; [reflexivity|].
  destruct (is_digit c); [discriminate|reflexivity].
Qed.

Lemma read_nat_str (n : nat) (rest : string) :
  no_digit_first rest = true -> read_nat (str_nat n ++ rest) = Some (n, rest).
Proof.
  intros Hr; unfold str_nat; rewrite digits_aux_app; cbn [String.append].
  destruct (digits_aux_first n n rest) as (c & s & Hcs & Hc).
  destruct (digits_aux_read (S n) n rest ltac:(lia)) as [k Hk].
  rewrite Hcs; cbn [read_nat]; rewrite Hc, <- Hcs, Hk, read_digits_stop by exact Hr.
  reflexivity.
Qed.

Lemma read_int_str (z : Z) (rest : string) :
  no_digit_first rest = true -> read_int (str_Z z ++ rest) = Some (z, rest).
Proof.
  intros Hr; destruct z as [|p|p]; unfold str_Z.
  - simpl; rewrite read_digits_stop by exact Hr; reflexivity.
  - change (Z.to_nat (Z.pos p)) with (Pos.to_nat p).
    pose proof (read_nat_str (Pos.to_nat p) rest Hr) as H.
    assert (E : (str_nat (Pos.to_nat p) ++ rest)%string =
                digits_aux (S (Pos.to_nat p)) (Pos.to_nat p) rest)
      by (unfold str_nat; rewrite digits_aux_app; reflexivity).
    destruct (digits_aux_first (Pos.to_nat p) (Pos.to_nat p) rest) as (c & s & Hcs & Hc).
    rewrite E, Hcs in *.
    assert (Hneq : Ascii.eqb c "-"%char = false).
    { destruct (Ascii.eqb c "-"%char) eqn:Ec; [|reflexivity].
      apply Ascii.eqb_eq in Ec; subst c; discriminate. }
    unfold read_int; rewrite Hneq, H, positive_nat_Z; reflexivity.
  - simpl; rewrite (read_nat_str _ _ Hr), positive_nat_Z; reflexivity.
Qed.

End Decimal.

Lemma string_app_nil_r (s : string) : (s ++ "")%string = s.
Proof. induction s as [|c s IH]; simpl; [reflexivity|rewrite IH; reflexivity]. Qed.

(** The f-string of line 16 loses nothing: every line it produces reads back
    as the coordinate and channel values it was printed from. *)
Theorem parse_pixel_line (x y : nat) (r g b : Z) :
  parse_line (pixel_line x y r g b) = Some (x, y, r, g, b).
Proof.
  unfold pixel_line, parse_line.
  rewrite <- (string_app_nil_r (str_Z b)).
  repeat first [ rewrite expect_app
               | rewrite read_nat_str by reflexivity
               | rewrite read_int_str by reflexivity ].
  reflexivity.
Qed.

(** ** Distinct lines and the shape of failures *)

Lemma line_inj (img : Image) (c1 c2 : nat * nat) :
  rgb_ok img c1 = true -> rgb_ok img c2 = true -> line img c1 = line img c2 -> c1 = c2.
Proof.
  intros H1 H2 E.
  destruct (line_of_ok img c1 H1) as (r1 & g1 & b1 & _ & E1).
  destruct (line_of_ok img c2 H2) as (r2 & g2 & b2 & _ & E2).
  rewrite E1, E2 in E; apply (f_equal parse_line) in E.
  rewrite !parse_pixel_line in E; injection E as Ex Ey _ _ _.
  destruct c1, c2; simpl in *; subst; reflexivity.
Qed.

Lemma nodup_map_ok (img : Image) (l : list (nat * nat)) :
  forallb (rgb_ok img) l = true -> NoDup l -> NoDup (map (line img) l).
Proof.
  induction l as [|c l IH]; intros Hok Hnd; simpl; [constructor|].
  simpl in Hok; apply andb_prop in Hok as [Hc Hl]; inversion Hnd as [|? ? Hnin Hnd']; subst.
  constructor; [|auto].
  intros Hin; apply in_map_iff in Hin as (d & Ed & Hd); apply Hnin.
  rewrite forallb_forall in Hl; rewrite <- (line_inj img d c (Hl d Hd) Hc Ed); exact Hd.
Qed.

(** A run that completes never prints the same line twice. *)
Theorem completed_run_lines_distinct (img : Image) (Hok : fst (report img) = inl tt) :
  NoDup (stdout (snd (report img))).
Proof.
  pose proof (report_ok_all img Hok) as Hall.
  rewrite (report_all_ok img Hall); apply nodup_map_ok; [exact Hall|apply row_major_nodup].
Qed.

Lemma completed_run_lines_distinct_witness :
  fst (report black2) = inl tt /\ NoDup (stdout (snd (report black2))).
Proof.
  split; [reflexivity|]; apply completed_run_lines_distinct; reflexivity.
Defined.

(** A run that ends in an error stops at the first coordinate (in the loops'
    order) whose body fails: that coordinate is the last one read, the lines
    of all coordinates before it are printed and kept, and the error is a
    pixel-access error when [getpixel] failed there and an unpacking error
    otherwise; it is never a [DecodeError]. *)
Theorem report_error_shape (img : Image) (e : error) (Herr : fst (report img) = inr e) :
  exists pre c post,
    row_major (width img) (height img) = pre ++ c :: post /\
    forallb (rgb_ok img) pre = true /\ rgb_ok img c = false /\
    stdout (snd (report img)) = map (line img) pre /\
    reads (snd (report img)) = pre ++ [c] /\
    e = (match px img (fst c) (snd c) with
         | None => PixelAccessError (fst c) (snd c)
         | Some _ => UnpackError (fst c) (snd c)
         end) /\
    e <> DecodeError.
Proof.
  destruct (report_shape img) as [_ (pre & Hpre & Hout & Hend)].
  destruct Hend as [(Hr & _ & _)|(c & post & E & Hc & Hr & Hrd)];
    rewrite Hr in Herr; [discriminate|injection Herr as <-].
  exists pre, c, post; repeat split; auto.
  unfold fault; destruct (px img (fst c) (snd c)); discriminate.
Qed.

Lemma report_error_shape_witness :
  fst (report gray1) = inr (UnpackError 0 0) /\
  exists pre c post,
    row_major (width gray1) (height gray1) = pre ++ c :: post /\
    forallb (rgb_ok gray1) pre = true /\ rgb_ok gray1 c = false /\
    stdout (snd (report gray1)) = map (line gray1) pre /\
    reads (snd (report gray1)) = pre ++ [c] /\
    UnpackError 0 0 = (match px gray1 (fst c) (snd c) with
         | None => PixelAccessError (fst c) (snd c)
         | Some _ => UnpackError (fst c) (snd c)
         end) /\
    UnpackError 0 0 <> DecodeError.
Proof.
  split; [reflexivity|]; apply report_error_shape; reflexivity.
Defined.

(** ** 8-bit RGB images: what the scan prints from the stored bytes *)

(** The coordinate of the [k]-th pixel in PIL's row-major storage. *)
Definition coord_of (w k : nat) : nat * nat := (k mod w, k / w).

Definition byte_Z (v : Byte.byte) : Z := Z.of_nat (Byte.to_nat v).

(** The channel values read back from printed lines, in order. *)
Definition printed_channels (out : list string) : list Z :=
  flat_map (fun l => match parse_line l with
                     | Some (_, _, r, g, b) => [r; g; b]
                     | None => []
                     end) out.

Lemma seq_shift_add (a n : nat) : seq a n = map (Nat.add a) (seq 0 n).
Proof.
  revert a; induction n as [|n IH]; intros a; [reflexivity|]; simpl.
  rewrite Nat.add_0_r, (IH (S a)), (IH 1), map_map; f_equal.
  apply map_ext; intros; lia.
Qed.

Lemma row_major_coord (w h : nat) : row_major w h = map (coord_of w) (seq 0 (w * h)).
Proof.
  destruct (Nat.eq_dec w 0) as [->|Hw]; [rewrite row_major_empty by auto; reflexivity|].
  induction h as [|h' IH]; [rewrite Nat.mul_0_r; reflexivity|].
  rewrite row_major_S, IH, Nat.mul_succ_r, seq_app, map_app; f_equal.
  rewrite (seq_shift_add (w * h')), map_map; unfold range; apply map_ext_in.
  intros x Hx; apply in_seq in Hx; unfold coord_of; f_equal.
  - apply (Nat.mod_unique _ _ h'); lia.
  - apply (Nat.div_unique _ _ h' x); lia.
Qed.

Lemma firstn_S_nth (l : bytes) (k : nat) :
  k < List.length l -> firstn (S k) l = firstn k l ++ [nth k l Byte.x00].
Proof.
  revert k; induction l as [|a l IH]; intros k Hk; simpl in Hk; [lia|].
  destruct k as [|k]; [reflexivity|].
  change (firstn (S (S k)) (a :: l)) with (a :: firstn (S k) l).
  rewrite IH by lia; reflexivity.
Qed.

Section Rgb8.

Variables (w h : nat) (buf : bytes).

Let img := rgb8_image w h buf.

Lemma rgb8_px_at (k : nat) :
  0 < w -> k < w * h -> 3 * k + 2 < List.length buf ->
  px img (k mod w) (k / w) =
  Some (PTuple [byte_Z (nth (3 * k) buf Byte.x00); byte_Z (nth (3 * k + 1) buf Byte.x00);
                byte_Z (nth (3 * k + 2) buf Byte.x00)]).
Proof.
  intros Hw Hk Hb; unfold img, rgb8_image; cbn [px].
  assert (Hx : k mod w < w) by (apply Nat.mod_upper_bound; lia).
  assert (Hy : k / w < h) by (apply Nat.Div0.div_lt_upper_bound; lia).
  assert (Hi : k / w * w + k mod w = k)
    by (pose proof (Nat.div_mod_eq k w); lia).
  apply Nat.ltb_lt in Hx; apply Nat.ltb_lt in Hy; rewrite Hx, Hy; cbn [andb].
  rewrite Hi, !(nth_error_nth' buf Byte.x00) by lia; reflexivity.
Qed.


Lemma rgb8_prefix_ok (n : nat) :
  0 < w -> n <= w * h -> 3 * n <= List.length buf ->
  forallb (rgb_ok img) (map (coord_of w) (seq 0 n)) = true.
Proof.
  intros Hw Hn Hb; apply forallb_forall; intros c Hc.
  apply in_map_iff in Hc as (k & <- & Hk); apply in_seq in Hk.
  unfold rgb_ok, coord_of; cbn [fst snd]; rewrite rgb8_px_at by lia; reflexivity.
Qed.

Lemma rgb8_prefix_channels (n : nat) :
  0 < w -> n <= w * h -> 3 * n <= List.length buf ->
  printed_channels (map (line img) (map (coord_of w) (seq 0 n))) =
  map byte_Z (firstn (3 * n) buf).
Proof.
  intros Hw; induction n as [|n IH]; intros Hn Hb; [reflexivity|].
  rewrite seq_S, !map_app; unfold printed_channels in *; rewrite flat_map_app, IH by lia.
  replace (3 * S n) with (S (S (S (3 * n)))) by lia.
  rewrite !firstn_S_nth by lia; rewrite !map_app, <- !app_assoc; f_equal.
  cbn [map flat_map]; unfold line, coord_of at 1; cbn [fst snd].
  rewrite rgb8_px_at by lia; rewrite parse_pixel_line.
  replace (S (3 * n)) with (3 * n + 1) by lia; replace (S (3 * n + 1)) with (3 * n + 2) by lia.
  reflexivity.
Qed.

End Rgb8.

(** An 8-bit RGB image whose buffer holds all [3 * w * h] bytes: the run
    completes, and the channel values of its printed lines, read back in
    order, are exactly the image's first [3 * w * h] stored bytes (the scan
    order of the loops is the storage order). *)
Theorem rgb8_full_buffer (w h : nat) (buf : bytes)
    (Hlen : 3 * (w * h) <= List.length buf) :
  fst (report (rgb8_image w h buf)) = inl tt /\
  printed_channels (stdout (snd (report (rgb8_image w h buf)))) =
  map byte_Z (firstn (3 * (w * h)) buf).
Proof.
  destruct (Nat.eq_dec w 0) as [->|Hw].
  - rewrite report_for_coords; cbn [width height fst snd rgb8_image size].
    rewrite row_major_empty by auto; split; reflexivity.
  - assert (Hall : forallb (rgb_ok (rgb8_image w h buf))
                     (row_major (width (rgb8_image w h buf)) (height (rgb8_image w h buf))) = true).
    { cbn [width height rgb8_image size fst snd]; rewrite row_major_coord.
      apply rgb8_prefix_ok; lia. }
    rewrite (report_all_ok _ Hall); split; [reflexivity|].
    cbn [width height rgb8_image size fst snd stdout snd]; rewrite row_major_coord.
    apply rgb8_prefix_channels; lia.
Qed.

Lemma rgb8_full_buffer_witness :
  fst (report (rgb8_image 2 1 [Byte.x01; Byte.x02; Byte.x03; Byte.x04; Byte.x05; Byte.x06]))
    = inl tt /\
  printed_channels
    (stdout (snd (report (rgb8_image 2 1 [Byte.x01; Byte.x02; Byte.x03; Byte.x04; Byte.x05; Byte.x06]))))
    = [1; 2; 3; 4; 5; 6]%Z.
Proof.
  apply (rgb8_full_buffer 2 1 [Byte.x01; Byte.x02; Byte.x03; Byte.x04; Byte.x05; Byte.x06]).
  vm_compute; lia.
Defined.


